(** * LongPollers: the long-polling broadcaster of server/long-pollers/models.js

    A shallow embedding of the class [LongPollers] and of the parts of its
    environment that its methods call (the JavaScript conversion [Number],
    the response object's [json], and Node's event emitter), followed by the
    properties of the broadcaster proved on that embedding. *)

From Stdlib Require Import List Bool Arith ZArith QArith Lia Ascii String Sorted.
From Stdlib Require Import DecimalString DecimalPos DecimalN.
Import ListNotations.

Set Implicit Arguments.
Local Close Scope Q_scope.

(** ** JavaScript values used by [add] *)

Module JS.

Local Open Scope Z_scope.

(** A JavaScript number.  A finite value is kept as the exact rational
    that the literal denotes; the rounding of ECMAScript's [Number] to a
    binary64 value is not modelled.  Integer timestamps below [2^53],
    which are what [Date.now()] returns, are exact in both. *)
Inductive number : Type :=
| NaN
| Infinity (negative : bool)
| Finite (q : Q).

Definition of_Z (z : Z) : number := Finite (inject_Z z).

(** [ToBoolean] on numbers: [NaN], [+0] and [-0] are falsy. *)
Definition truthy (n : number) : bool :=
  match n with
  | NaN => false
  | Infinity _ => true
  | Finite q => negb (Qeq_bool q (inject_Z 0))
  end.

(** [a || b] on numbers. *)
Definition or (a b : number) : number := if truthy a then a else b.

(** [a == b] and [a != b] on numbers: [NaN] is equal to nothing. *)
Definition eq (a b : number) : bool :=
  match a, b with
  | Finite p, Finite q => Qeq_bool p q
  | Infinity s, Infinity t => Bool.eqb s t
  | _, _ => false
  end.

Definition neq (a b : number) : bool := negb (eq a b).

(** *** [Number(value)] on [undefined] and on strings

    A character of the model is a code unit below 256, so the white space
    of [StrWhiteSpaceChar] is TAB, LF, VT, FF, CR, SP and NBSP. *)

Definition is_StrWhiteSpaceChar (c : ascii) : bool :=
  let n := nat_of_ascii c in
  ((9 <=? n) && (n <=? 13) || (n =? 32) || (n =? 160))%nat.

Fixpoint skip_white (l : list ascii) : list ascii :=
  match l with
  | c :: t => if is_StrWhiteSpaceChar c then skip_white t else l
  | [] => []
  end.

Definition trim (l : list ascii) : list ascii :=
  rev (skip_white (rev (skip_white l))).

(** The value of a digit in a base up to 16, if [c] is one. *)
Definition digit (base : Z) (c : ascii) : option Z :=
  let n := Z.of_nat (nat_of_ascii c) in
  let v :=
    if (48 <=? n) && (n <=? 57) then n - 48
    else if (97 <=? n) && (n <=? 102) then n - 87
    else if (65 <=? n) && (n <=? 70) then n - 55
    else 16 in
  if v <? base then Some v else None.

(** Reads the longest run of digits at the head of [l]: the accumulated
    value, the number of digits read, and what follows them. *)
Fixpoint digits (base : Z) (l : list ascii) (acc : Z) (n : nat)
  : Z * nat * list ascii :=
  match l with
  | c :: t =>
      match digit base c with
      | Some d => digits base t (acc * base + d) (S n)
      | None => (acc, n, l)
      end
  | [] => (acc, n, [])
  end.

(** [m * 10^e] as a rational. *)
Definition decimal (m e : Z) : Q :=
  if 0 <=? e then inject_Z (m * 10 ^ e)
  else Qmake m (Z.to_pos (10 ^ (- e))).

(** [NonDecimalIntegerLiteral] after its two-character prefix. *)
Definition integer_literal (base : Z) (l : list ascii) : number :=
  match digits base l 0 0 with
  | (v, S _, []) => of_Z v
  | _ => NaN
  end.

(** [ExponentPart], optional, up to the end of the text. *)
Definition exponent_part (l : list ascii) : option Z :=
  match l with
  | [] => Some 0
  | c :: t =>
      if (Ascii.eqb c "e" || Ascii.eqb c "E")%char then
        let (negative, t') :=
          match t with
          | s :: u =>
              if Ascii.eqb s "-" then (true, u)
              else if Ascii.eqb s "+" then (false, u)
              else (false, t)
          | [] => (false, t)
          end in
        match digits 10 t' 0 0 with
        | (e, S _, []) => Some (if negative then - e else e)
        | _ => None
        end
      else None
  end.

(** [StrDecimalLiteral]: a sign, then [Infinity] or decimal digits with
    an optional fraction and exponent. *)
Definition decimal_literal (l : list ascii) : number :=
  let (negative, u) :=
    match l with
    | s :: t =>
        if Ascii.eqb s "-" then (true, t)
        else if Ascii.eqb s "+" then (false, t)
        else (false, l)
    | [] => (false, l)
    end in
  if String.eqb (string_of_list_ascii u) "Infinity" then Infinity negative
  else
    let '(i, ni, r1) := digits 10 u 0 0 in
    let '(m, nf, r2) :=
      match r1 with
      | c :: t => if Ascii.eqb c "." then digits 10 t i 0 else (i, 0%nat, r1)
      | [] => (i, 0%nat, r1)
      end in
    match ni, nf with
    | O, O => NaN
    | _, _ =>
        match exponent_part r2 with
        | Some e =>
            Finite (decimal (if negative then - m else m) (e - Z.of_nat nf))
        | None => NaN
        end
    end.

(** [StringToNumber]: the empty or white text is [0]; any text that is
    not a [StrNumericLiteral] is [NaN]. *)
Definition StringToNumber (s : string) : number :=
  match trim (list_ascii_of_string s) with
  | [] => of_Z 0
  | (c :: p :: t) as l =>
      if Ascii.eqb c "0" && (Ascii.eqb p "x" || Ascii.eqb p "X") then
        integer_literal 16 t
      else if Ascii.eqb c "0" && (Ascii.eqb p "o" || Ascii.eqb p "O") then
        integer_literal 8 t
      else if Ascii.eqb c "0" && (Ascii.eqb p "b" || Ascii.eqb p "B") then
        integer_literal 2 t
      else decimal_literal l
  | l => decimal_literal l
  end.

(** What [req.query.lastMessageTime] holds: nothing, or the text of the
    query parameter. *)
Inductive value : Type :=
| undefined
| text (s : string).

Definition Number (v : value) : number :=
  match v with
  | undefined => NaN
  | text s => StringToNumber s
  end.

End JS.

(** ** The environment of the class: response objects and their listeners *)

(** A response object ([res]) is known by its identity. *)
Abbreviation Handle := nat.

(** The two events of a response that [add] listens to. *)
Inductive Event : Type :=
| finish
| close.

(** One arrow function [connectionEnded]: each call of [add] that parks its
    response creates a new one, which captures that call's [res]. *)
Record Listener : Type := mkListener {
  fn : nat;
  captured : Handle
}.

Definition Listener_eqb (a b : Listener) : bool :=
  (fn a =? fn b)%nat && (captured a =? captured b)%nat.

(** What [res.json] throws when the response has already ended. *)
Inductive Error : Type :=
| ResponseEnded (res : Handle).

(** [array.indexOf(x)]: the first index of [x], or [-1]. *)
Fixpoint indexOf (l : list Handle) (x : Handle) : Z :=
  match l with
  | [] => -1
  | y :: t =>
      if (y =? x)%nat then 0%Z
      else let i := indexOf t x in if (i =? -1)%Z then (-1)%Z else (i + 1)%Z
  end.

(** [array.splice(start, deleteCount)], the array left after the removal. *)
Definition splice (l : list Handle) (start : Z) (deleteCount : nat)
  : list Handle :=
  let len := Z.of_nat (List.length l) in
  let s := Z.to_nat (if (start <? 0)%Z then Z.max (len + start) 0
                     else Z.min start len) in
  firstn s l ++ skipn (s + deleteCount) l.

(** [emitter.removeListener(event, f)] removes the most recently added
    instance of [f] from the listeners of the event. *)
Fixpoint remove_first (f : Listener) (l : list Listener) : list Listener :=
  match l with
  | [] => []
  | g :: t => if Listener_eqb g f then t else g :: remove_first f t
  end.

Definition removeListener (f : Listener) (l : list Listener) : list Listener :=
  rev (remove_first f (rev l)).

(** The first occurrence of [x] taken out of [l]: what the two lines
    [indexOf] and [splice] of [connectionEnded] compute together. *)
Fixpoint drop_first (x : Handle) (l : list Handle) : list Handle :=
  match l with
  | [] => []
  | y :: t => if (y =? x)%nat then t else y :: drop_first x t
  end.

Section LongPollers.

(** The broadcast payload is any value of the application. *)
Variable Payload : Type.

(** [{ message, time: Date.now() }] *)
Record Message : Type := mkMessage {
  message : Payload;
  time : Z
}.

(** The state of one response object: the listeners registered for its
    two events, whether it can still be written to, and the bodies
    written to it ([None] is [null]). *)
Record Response : Type := mkResponse {
  on_finish : list Listener;
  on_close : list Listener;
  writable : bool;
  sent : list (option Message)
}.

Definition listeners (ev : Event) (r : Response) : list Listener :=
  match ev with
  | finish => on_finish r
  | close => on_close r
  end.

Definition set_listeners (ev : Event) (ls : list Listener) (r : Response)
  : Response :=
  match ev with
  | finish => mkResponse ls (on_close r) (writable r) (sent r)
  | close => mkResponse (on_finish r) ls (writable r) (sent r)
  end.

(** The fields of a [LongPollers] instance. *)
Record LongPollers : Type := mkLongPollers {
  _responses : list Handle;
  _lastMessage : option Message
}.

(** One call [res.json(body)] as it happened: [ok] is false when the
    call threw. *)
Record Call : Type := mkCall {
  call_res : Handle;
  call_body : option Message;
  call_ok : bool
}.

(** The instance together with what its methods reach: the response
    objects, the supply of function identities, the calls of [res.json]
    made so far, and what [console.log] printed. *)
Record World : Type := mkWorld {
  this : LongPollers;
  response : Handle -> Response;
  next_fn : nat;
  json_calls : list Call;
  console : list Error
}.

Definition set_this (p : LongPollers) (w : World) : World :=
  mkWorld p (response w) (next_fn w) (json_calls w) (console w).

Definition set_response (res : Handle) (r : Response) (w : World) : World :=
  mkWorld (this w)
          (fun h => if (h =? res)%nat then r else response w h)
          (next_fn w) (json_calls w) (console w).

(** *** Statements that may throw *)

Inductive Completion (A : Type) : Type :=
| Normal (a : A)
| Throw (e : Error).
Arguments Normal {A} a.
Arguments Throw {A} e.

Definition JSM (A : Type) : Type := World -> Completion A * World.

Definition ret {A} (a : A) : JSM A := fun w => (Normal a, w).

Definition bind {A B} (m : JSM A) (k : A -> JSM B) : JSM B :=
  fun w =>
    match m w with
    | (Normal a, w') => k a w'
    | (Throw e, w') => (Throw e, w')
    end.

Notation "x <- m ;; k" := (bind m (fun x => k))
  (at level 61, m at next level, right associativity).
Notation "m ;; k" := (bind m (fun _ => k))
  (at level 61, right associativity).

Definition get : JSM World := fun w => (Normal w, w).
Definition modify (f : World -> World) : JSM unit :=
  fun w => (Normal tt, f w).
Definition throw {A} (e : Error) : JSM A := fun w => (Throw e, w).

(** [try { m } catch (err) { handler err }] *)
Definition try_catch (m : JSM unit) (handler : Error -> JSM unit)
  : JSM unit :=
  fun w =>
    match m w with
    | (Normal a, w') => (Normal a, w')
    | (Throw e, w') => handler e w'
    end.

(** [for (const x of l) { body x }] over the elements [l] of an array
    that the body leaves alone. *)
Fixpoint for_of {A} (l : list A) (body : A -> JSM unit) : JSM unit :=
  match l with
  | [] => ret tt
  | x :: t => body x ;; for_of t body
  end.

(** [console.log(err)] *)
Definition console_log (err : Error) : JSM unit :=
  modify (fun w => mkWorld (this w) (response w) (next_fn w)
                           (json_calls w) (console w ++ [err])).

(** A response after the body [v] has been written to it: the body is
    recorded and the exchange is over. *)
Definition write (v : option Message) (r : Response) : Response :=
  mkResponse (on_finish r) (on_close r) false (sent r ++ [v]).

(** Modelled from the spec: the write operation of the response handle
    (the response object belongs to the HTTP framework, which is not under
    src/).  [res.json] writes a value and completes the exchange, exactly
    once: on a handle that is still open the value is written and the
    handle is closed; on a handle that is already closed the call throws.
    The events [finish] and [close] are not emitted inside the call; the
    event loop delivers them to the listeners later, see [emit]. *)
Definition res_json (res : Handle) (v : option Message) : JSM unit :=
  w <- get ;;
  let r := response w res in
  modify (fun w => mkWorld (this w) (response w) (next_fn w)
                           (json_calls w ++ [mkCall res v (writable r)])
                           (console w)) ;;
  if writable r then modify (set_response res (write v r))
  else throw (ResponseEnded res).

(** [res.on(ev, f)] *)
Definition res_on (res : Handle) (ev : Event) (f : Listener) : JSM unit :=
  modify (fun w =>
    let r := response w res in
    set_response res (set_listeners ev (listeners ev r ++ [f]) r) w).

(** [res.removeListener(ev, f)] *)
Definition res_removeListener (res : Handle) (ev : Event) (f : Listener)
  : JSM unit :=
  modify (fun w =>
    let r := response w res in
    set_response res (set_listeners ev (removeListener f (listeners ev r)) r) w).

(** ** The class *)

(** [constructor()] *)
Definition constructor : LongPollers := mkLongPollers [] None.

(** [get lastMessage()] *)
Definition lastMessage (self : LongPollers) : option Message :=
  _lastMessage self.

(** [get lastMessageTime()]: an object is truthy, [null] is not. *)
Definition lastMessageTime (self : LongPollers) : Z :=
  match _lastMessage self with
  | Some m => time m
  | None => 0
  end.

(** The body of the loop of [broadcast], for one [res] of the pool:
    [try { res.json(this._lastMessage); } catch (err) { console.log(err); }] *)
Definition notify (res : Handle) : JSM unit :=
  try_catch
    (w <- get ;; res_json res (_lastMessage (this w)))
    (fun err => console_log err).

(** [broadcast(message)]; [now] is what [Date.now()] returns in the call. *)
Definition broadcast (message : Payload) (now : Z) : JSM unit :=
  modify (fun w =>
    set_this (mkLongPollers (_responses (this w))
                            (Some (mkMessage message now))) w) ;;
  w <- get ;;
  for_of (_responses (this w)) notify.

(** The arrow function [connectionEnded] of [add], called. *)
Definition connectionEnded (f : Listener) : JSM unit :=
  let res := captured f in
  res_removeListener res finish f ;;
  res_removeListener res close f ;;
  w <- get ;;
  let index := indexOf (_responses (this w)) res in
  if negb (index =? -1)%Z then
    modify (set_this (mkLongPollers (splice (_responses (this w)) index 1)
                                    (_lastMessage (this w))))
  else ret tt.

(** [Number(req.query.lastMessageTime) || 0] *)
Definition queryMessageTime (query : JS.value) : JS.number :=
  JS.or (JS.Number query) (JS.of_Z 0).

(** The test [queryMessageTime != lastMessageTime] of [add]: the client
    has not seen what the instance holds. *)
Definition behind (query : JS.value) (self : LongPollers) : bool :=
  JS.neq (queryMessageTime query) (JS.of_Z (lastMessageTime self)).

(** [add(req, res)]; [query] is [req.query.lastMessageTime]. *)
Definition add (query : JS.value) (res : Handle) : JSM unit :=
  w <- get ;;
  if behind query (this w) then
    res_json res (_lastMessage (this w))
  else
    modify (set_this (mkLongPollers (_responses (this w) ++ [res])
                                    (_lastMessage (this w)))) ;;
    w <- get ;;
    let f := mkListener (next_fn w) res in
    modify (fun w => mkWorld (this w) (response w) (S (next_fn w))
                             (json_calls w) (console w)) ;;
    res_on res finish f ;;
    res_on res close f.

(** [res.emit(ev)], as Node's event loop does when the response has been
    sent ([finish]) or its connection has closed ([close]): the listeners
    registered at that moment are called in order. *)
Definition emit (res : Handle) (ev : Event) : JSM unit :=
  w <- get ;;
  for_of (listeners ev (response w res)) connectionEnded.

(** ** Runs of the broadcaster *)

Inductive Op : Type :=
| CallBroadcast (message : Payload) (now : Z)
| CallAdd (query : JS.value) (res : Handle)
| Emits (res : Handle) (ev : Event).

Definition step (op : Op) : JSM unit :=
  match op with
  | CallBroadcast message now => broadcast message now
  | CallAdd query res => add query res
  | Emits res ev => emit res ev
  end.

(** The world after an operation; an error thrown to the caller leaves
    the world as it was when thrown. *)
Definition exec (op : Op) (w : World) : World := snd (step op w).

Definition run (ops : list Op) (w : World) : World :=
  fold_left (fun w op => exec op w) ops w.

(** A world in which the instance has just been constructed: no response
    has a [connectionEnded] listener yet. *)
Definition initial (w : World) : Prop :=
  this w = constructor /\
  forall res, on_finish (response w res) = [] /\
              on_close (response w res) = [].

(** The worlds reached from an initial one by operations that each
    satisfy [allowed] in the world they are applied to. *)
Inductive reachable_by (allowed : Op -> World -> Prop) : World -> Prop :=
| reach_initial w : initial w -> reachable_by allowed w
| reach_step w op :
    reachable_by allowed w -> allowed op w ->
    reachable_by allowed (exec op w).

Definition reachable : World -> Prop := reachable_by (fun _ _ => True).

(** Every [add] is given a response that is not in the pool. *)
Definition fresh_response (op : Op) (w : World) : Prop :=
  match op with
  | CallAdd _ res => ~ In res (_responses (this w))
  | _ => True
  end.

(** The world of a new instance among new, open responses. *)
Definition new_world : World :=
  mkWorld constructor (fun _ => mkResponse [] [] true []) 0 [] [].

(** ** Notions used to state the properties *)

(** The errors that the failed calls among [calls] raise. *)
Definition errors_of (calls : list Call) : list Error :=
  map (fun c => ResponseEnded (call_res c))
      (filter (fun c => negb (call_ok c)) calls).

(** Worlds in which the observers and the pool agree: each response has
    the same observers for [finish] and for [close], each one registered
    once, created by this instance for that response, and as many of them
    as the response has entries in the pool. *)
Definition consistent (w : World) : Prop :=
  forall res,
    let r := response w res in
    on_close r = on_finish r /\
    NoDup (on_finish r) /\
    (forall f, In f (on_finish r) ->
               captured f = res /\ (fn f < next_fn w)%nat) /\
    count_occ Nat.eq_dec (_responses (this w)) res =
      List.length (on_finish r).




(** The messages stored by the broadcasts of a run, in order. *)
Fixpoint messages (ops : list Op) : list Message :=
  match ops with
  | [] => []
  | CallBroadcast message now :: t => mkMessage message now :: messages t
  | _ :: t => messages t
  end.

(** The operations that keep a parked [res] parked: no broadcast, and
    neither a call of [add] nor an event on [res] itself. *)
Definition keeps_parked (res : Handle) (op : Op) : Prop :=
  match op with
  | CallBroadcast _ _ => False
  | CallAdd _ res' => res' <> res
  | Emits res' _ => res' <> res
  end.

End LongPollers.

Arguments Normal {A} a.
Arguments Throw {A} e.
Arguments CallAdd {Payload} query res.
Arguments Emits {Payload} res ev.
Arguments behind : simpl never.

(** Three concrete worlds: a new instance, the same after one client has
    been parked, and a new instance after one broadcast. *)
Definition w_new : World string := new_world string.
Definition w_parked : World string := exec (CallAdd JS.undefined 1) w_new.
Definition w_sent : World string := exec (CallBroadcast "A"%string 100) w_new.




(** ** Arrays and listener lists *)

Lemma Listener_eqb_eq (a b : Listener) : Listener_eqb a b = true <-> a = b.
Proof.
  destruct a as [fa ca], b as [fb cb]; unfold Listener_eqb; simpl.
  rewrite andb_true_iff, !Nat.eqb_eq. split.
  - intros [-> ->]; reflexivity.
  - intros H; inversion H; auto.
Qed.

Lemma Listener_eqb_refl (a : Listener) : Listener_eqb a a = true.
Proof. apply Listener_eqb_eq; reflexivity. Qed.

Lemma remove_first_absent (f : Listener) (l : list Listener) :
  ~ In f l -> remove_first f l = l.
Proof.
  induction l as [|g t IH]; simpl; intros H; [reflexivity|].
  destruct (Listener_eqb g f) eqn:E.
  - apply Listener_eqb_eq in E. exfalso; apply H; left; exact E.
  - f_equal. apply IH. intros Hin; apply H; right; exact Hin.
Qed.

Lemma remove_first_last (f : Listener) (l : list Listener) :
  ~ In f l -> remove_first f (l ++ [f]) = l.
Proof.
  induction l as [|g t IH]; simpl; intros H.
  - now rewrite Listener_eqb_refl.
  - destruct (Listener_eqb g f) eqn:E.
    + apply Listener_eqb_eq in E. exfalso; apply H; left; exact E.
    + f_equal. apply IH. intros Hin; apply H; right; exact Hin.
Qed.

Lemma removeListener_absent (f : Listener) (l : list Listener) :
  ~ In f l -> removeListener f l = l.
Proof.
  intros H. unfold removeListener.
  rewrite remove_first_absent, rev_involutive; [reflexivity|].
  now rewrite <- in_rev.
Qed.

Lemma removeListener_head (f : Listener) (l : list Listener) :
  ~ In f l -> removeListener f (f :: l) = l.
Proof.
  intros H. unfold removeListener. simpl.
  rewrite remove_first_last, rev_involutive; [reflexivity|].
  now rewrite <- in_rev.
Qed.

Lemma indexOf_range (l : list Handle) (x : Handle) :
  (indexOf l x = (-1)%Z /\ ~ In x l) \/
  (0 <= indexOf l x < Z.of_nat (List.length l) /\ In x l)%Z.
Proof.
  induction l as [|y t IH]; simpl.
  - left; split; [reflexivity | tauto].
  - destruct (Nat.eqb_spec y x) as [->|Hne].
    + right; split; [lia | now left].
    + destruct IH as [[E Hn]|[R Hin]].
      * rewrite E. simpl. left; split; [reflexivity | tauto].
      * destruct (Z.eqb_spec (indexOf t x) (-1)) as [E|_]; [lia|].
        right; split; [lia | now right].
Qed.

Lemma indexOf_absent (l : list Handle) (x : Handle) :
  ~ In x l -> indexOf l x = (-1)%Z.
Proof. destruct (indexOf_range l x) as [[E _]|[_ Hin]]; tauto. Qed.

Lemma indexOf_present (l : list Handle) (x : Handle) :
  In x l -> (0 <= indexOf l x < Z.of_nat (List.length l))%Z.
Proof. destruct (indexOf_range l x) as [[_ Hn]|[R _]]; tauto. Qed.

Lemma splice_at (l : list Handle) (i : Z) :
  (0 <= i < Z.of_nat (List.length l))%Z ->
  splice l i 1 = firstn (Z.to_nat i) l ++ skipn (S (Z.to_nat i)) l.
Proof.
  intros R. unfold splice.
  destruct (Z.ltb_spec i 0) as [Hlt|_]; [lia|].
  rewrite Z.min_l by lia. now rewrite Nat.add_1_r.
Qed.

Lemma splice_indexOf (l : list Handle) (x : Handle) :
  In x l -> splice l (indexOf l x) 1 = drop_first x l.
Proof.
  intros Hin. rewrite splice_at by now apply indexOf_present.
  induction l as [|y t IH]; simpl; [contradiction|].
  destruct (Nat.eqb_spec y x) as [->|Hne]; [reflexivity|].
  assert (Ht : In x t) by (destruct Hin; [contradiction | assumption]).
  pose proof (indexOf_present t x Ht) as R.
  destruct (Z.eqb_spec (indexOf t x) (-1)) as [E|_]; [lia|].
  replace (Z.to_nat (indexOf t x + 1)) with (S (Z.to_nat (indexOf t x))) by lia.
  simpl. f_equal. now apply IH.
Qed.

Lemma drop_first_absent (x : Handle) (l : list Handle) :
  ~ In x l -> drop_first x l = l.
Proof.
  induction l as [|y t IH]; simpl; intros H; [reflexivity|].
  destruct (Nat.eqb_spec y x) as [->|Hne]; [tauto|].
  f_equal. apply IH. tauto.
Qed.

Lemma count_drop_first_same (x : Handle) (l : list Handle) :
  count_occ Nat.eq_dec (drop_first x l) x = pred (count_occ Nat.eq_dec l x).
Proof.
  induction l as [|y t IH]; simpl; [reflexivity|].
  destruct (Nat.eqb_spec y x) as [->|Hne].
  - destruct (Nat.eq_dec x x); [reflexivity | contradiction].
  - simpl. destruct (Nat.eq_dec y x); [contradiction | exact IH].
Qed.

Lemma count_drop_first_other (x y : Handle) (l : list Handle) :
  y <> x ->
  count_occ Nat.eq_dec (drop_first x l) y = count_occ Nat.eq_dec l y.
Proof.
  intros Hne. induction l as [|z t IH]; simpl; [reflexivity|].
  destruct (Nat.eqb_spec z x) as [->|Hzx].
  - destruct (Nat.eq_dec x y); [congruence | reflexivity].
  - simpl. destruct (Nat.eq_dec z y); now rewrite IH.
Qed.

Lemma In_drop_first (x y : Handle) (l : list Handle) :
  In y (drop_first x l) -> In y l.
Proof.
  induction l as [|z t IH]; simpl; [tauto|].
  destruct (Nat.eqb_spec z x) as [->|Hzx]; simpl; tauto.
Qed.

Lemma NoDup_drop_first (x : Handle) (l : list Handle) :
  NoDup l -> NoDup (drop_first x l).
Proof.
  induction 1 as [|z t Hz Ht IH]; simpl; [constructor|].
  destruct (Nat.eqb_spec z x) as [->|Hzx]; [assumption|].
  constructor; [|assumption].
  intros Hin. apply Hz. eapply In_drop_first; eassumption.
Qed.

Unset Implicit Arguments.

(** ** [Number] on decimal numerals *)










Section Properties.

Variable Payload : Type.

Abbreviation World := (World Payload).
Abbreviation Message := (Message Payload).

Ltac run_js :=
  unfold bind, get, modify, ret, throw, try_catch, console_log,
         set_this, set_response; simpl.

(** ** The response handle *)

Lemma res_json_effect (res : Handle) (v : option Message) (w : World) :
  let w' := snd (res_json res v w) in
  fst (res_json res v w) =
    (if writable (response w res) then Normal tt
     else Throw (ResponseEnded res)) /\
  this w' = this w /\
  next_fn w' = next_fn w /\
  console w' = console w /\
  json_calls w' =
    json_calls w ++ [mkCall res v (writable (response w res))] /\
  forall h,
    response w' h =
      if (h =? res)%nat && writable (response w res)
      then write v (response w res) else response w h.
Proof.
  unfold res_json. run_js.
  destruct (writable (response w res)) eqn:E; simpl;
    repeat split; intros h; destruct (h =? res)%nat; reflexivity.
Qed.

(** ** The loop of [broadcast] *)

Lemma notify_effect (res : Handle) (w : World) :
  let w' := snd (notify res w) in
  let v := _lastMessage (this w) in
  fst (notify res w) = Normal tt /\
  this w' = this w /\
  next_fn w' = next_fn w /\
  console w' =
    console w ++
    (if writable (response w res) then [] else [ResponseEnded res]) /\
  json_calls w' =
    json_calls w ++ [mkCall res v (writable (response w res))] /\
  forall h,
    response w' h =
      if (h =? res)%nat && writable (response w res)
      then write v (response w res) else response w h.
Proof.
  unfold notify, res_json. run_js.
  destruct (writable (response w res)) eqn:E; simpl;
    rewrite ?app_nil_r;
    repeat split; intros h; destruct (h =? res)%nat; reflexivity.
Qed.

Lemma errors_of_app (a b : list (Call Payload)) :
  errors_of (a ++ b) = errors_of a ++ errors_of b.
Proof. unfold errors_of. now rewrite filter_app, map_app. Qed.

Lemma fan_out (l : list Handle) (w : World) :
  let w' := snd (for_of l (@notify Payload) w) in
  let v := _lastMessage (this w) in
  fst (for_of l (@notify Payload) w) = Normal tt /\
  this w' = this w /\
  next_fn w' = next_fn w /\
  (exists calls,
      json_calls w' = json_calls w ++ calls /\
      map (@call_res Payload) calls = l /\
      Forall (fun c => call_body c = v) calls /\
      Forall (fun c => call_ok c = true ->
                       writable (response w (call_res c)) = true) calls /\
      console w' = console w ++ errors_of calls) /\
  forall h,
    response w' h =
      if existsb (Nat.eqb h) l && writable (response w h)
      then write v (response w h) else response w h.
Proof.
  revert w. induction l as [|x t IH]; intros w; simpl.
  - repeat split.
    exists []. simpl. rewrite !app_nil_r. repeat split; constructor.
  - unfold bind.
    destruct (notify_effect x w) as (Hn & Ht & Hf & Hc & Hj & Hr).
    destruct (notify x w) as [c w1] eqn:E. simpl in *. subst c.
    destruct (IH w1)
      as (In_ & It & If_ & (calls & Ij & Im & Ib & Io & Ic) & Ir).
    rewrite Ht in *.
    split; [exact In_|]. split; [congruence|]. split; [congruence|]. split.
    + exists (mkCall x (_lastMessage (this w)) (writable (response w x))
              :: calls).
      rewrite Ij, Hj, Ic, Hc, <- !app_assoc. simpl.
      split; [reflexivity|]. split; [now rewrite Im|].
      split; [constructor; [reflexivity | assumption]|]. split.
      * constructor; [simpl; auto|].
        eapply Forall_impl; [|exact Io]. intros c Hc' Hok.
        specialize (Hc' Hok). rewrite Hr in Hc'.
        destruct ((call_res c =? x)%nat && writable (response w x));
          [discriminate | assumption].
      * unfold errors_of at 2. simpl.
        destruct (writable (response w x)); reflexivity.
    + intros h. rewrite Ir, !Hr.
      destruct (Nat.eqb_spec h x) as [->|Hne]; simpl.
      * destruct (writable (response w x)) eqn:Ew; simpl.
        -- now rewrite andb_false_r.
        -- now rewrite ?Ew, ?andb_false_r.
      * reflexivity.
Qed.

Lemma existsb_eqb_In (h : Handle) (l : list Handle) :
  existsb (Nat.eqb h) l = true <-> In h l.
Proof.
  rewrite existsb_exists. split.
  - intros (x & Hin & E). apply Nat.eqb_eq in E. now subst.
  - intros Hin. exists h. split; [assumption | apply Nat.eqb_refl].
Qed.

Lemma broadcast_effect (message : Payload) (now : Z) (w : World) :
  let w' := snd (broadcast message now w) in
  let v := Some (mkMessage message now) in
  fst (broadcast message now w) = Normal tt /\
  this w' = mkLongPollers (_responses (this w)) v /\
  next_fn w' = next_fn w /\
  (exists calls,
      json_calls w' = json_calls w ++ calls /\
      map (@call_res Payload) calls = _responses (this w) /\
      Forall (fun c => call_body c = v) calls /\
      Forall (fun c => call_ok c = true ->
                       writable (response w (call_res c)) = true) calls /\
      console w' = console w ++ errors_of calls) /\
  forall h,
    response w' h =
      if existsb (Nat.eqb h) (_responses (this w)) &&
         writable (response w h)
      then write v (response w h) else response w h.
Proof.
  unfold broadcast. run_js.
  exact (fan_out (_responses (this w))
           (mkWorld (mkLongPollers (_responses (this w))
                       (Some (mkMessage message now)))
                    (response w) (next_fn w) (json_calls w) (console w))).
Qed.

(** ** The disconnect observer *)

Lemma connectionEnded_effect (f : Listener) (w : World) :
  let w' := snd (connectionEnded f w) in
  let r := response w (captured f) in
  fst (connectionEnded f w) = Normal tt /\
  _lastMessage (this w') = _lastMessage (this w) /\
  _responses (this w') = drop_first (captured f) (_responses (this w)) /\
  next_fn w' = next_fn w /\
  json_calls w' = json_calls w /\
  console w' = console w /\
  forall h,
    response w' h =
      if (h =? captured f)%nat
      then mkResponse (removeListener f (on_finish r))
                      (removeListener f (on_close r))
                      (writable r) (sent r)
      else response w h.
Proof.
  unfold connectionEnded, res_removeListener. run_js.
  rewrite !Nat.eqb_refl. simpl.
  destruct (indexOf_range (_responses (this w)) (captured f))
    as [[E Hn]|[R Hin]].
  - rewrite E. simpl. rewrite drop_first_absent by assumption.
    repeat split. intros h. destruct (h =? captured f)%nat; reflexivity.
  - destruct (Z.eqb_spec (indexOf (_responses (this w)) (captured f)) (-1))
      as [E|_]; [lia|].
    simpl. rewrite splice_indexOf by assumption.
    repeat split. intros h. destruct (h =? captured f)%nat; reflexivity.
Qed.

Lemma emit_loop (res : Handle) (ls : list Listener) :
  forall w : World,
    on_finish (response w res) = ls ->
    on_close (response w res) = ls ->
    NoDup ls ->
    (forall f, In f ls -> captured f = res) ->
    let w' := snd (for_of ls (@connectionEnded Payload) w) in
    let r := response w res in
    fst (for_of ls (@connectionEnded Payload) w) = Normal tt /\
    _lastMessage (this w') = _lastMessage (this w) /\
    next_fn w' = next_fn w /\
    json_calls w' = json_calls w /\
    console w' = console w /\
    (forall h, h <> res -> response w' h = response w h) /\
    response w' res = mkResponse [] [] (writable r) (sent r) /\
    (forall h, h <> res ->
       count_occ Nat.eq_dec (_responses (this w')) h =
       count_occ Nat.eq_dec (_responses (this w)) h) /\
    count_occ Nat.eq_dec (_responses (this w')) res =
      count_occ Nat.eq_dec (_responses (this w)) res - List.length ls /\
    (NoDup (_responses (this w)) -> NoDup (_responses (this w'))) /\
    (forall h, In h (_responses (this w')) -> In h (_responses (this w))).
Proof.
  induction ls as [|f t IH]; intros w Hf Hc Hnd Hcap; simpl.
  - repeat split; auto.
    + destruct (response w res); simpl in *; now subst.
    + lia.
  - unfold bind.
    destruct (connectionEnded_effect f w) as (En & El & Ep & Ef & Ej & Eo & Er).
    destruct (connectionEnded f w) as [c w1] eqn:E. simpl in *. subst c.
    assert (Hres : captured f = res) by (apply Hcap; now left).
    rewrite Hres in *.
    apply NoDup_cons_iff in Hnd as [Hnotin Hnd'].
    assert (R1 : response w1 res =
                 mkResponse t t (writable (response w res))
                            (sent (response w res))).
    { rewrite Er, Nat.eqb_refl, Hf, Hc.
      now rewrite removeListener_head by assumption. }
    destruct (IH w1) as (In_ & Il & If_ & Ij & Io & Ir & Is & Ic & Id & Ind & Iin).
    { now rewrite R1. }
    { now rewrite R1. }
    { assumption. }
    { intros g Hg. apply Hcap. now right. }
    rewrite R1 in Is. simpl in Is.
    split; [exact In_|]. split; [congruence|]. split; [congruence|].
    split; [congruence|]. split; [congruence|]. split.
    { intros h Hne. rewrite Ir by assumption. rewrite Er.
      destruct (Nat.eqb_spec h res); [contradiction | reflexivity]. }
    split; [exact Is|]. split.
    { intros h Hne. rewrite Ic by assumption. rewrite Ep.
      now apply count_drop_first_other. }
    split.
    { rewrite Id, Ep, count_drop_first_same. lia. }
    split.
    { intros Hn. apply Ind. rewrite Ep. now apply NoDup_drop_first. }
    { intros h Hin. apply Iin in Hin. rewrite Ep in Hin.
      eapply In_drop_first; eassumption. }
Qed.

(** ** [add] on its two paths *)

Lemma add_behind (query : JS.value) (res : Handle) (w : World) :
  behind query (this w) = true ->
  add query res w = res_json res (_lastMessage (this w)) w.
Proof. intros H. unfold add, bind at 1, get. now rewrite H. Qed.

Lemma add_parks (query : JS.value) (res : Handle) (w : World) :
  behind query (this w) = false ->
  let w' := snd (add query res w) in
  let r := response w res in
  let f := mkListener (next_fn w) res in
  fst (add query res w) = Normal tt /\
  this w' = mkLongPollers (_responses (this w) ++ [res])
                          (_lastMessage (this w)) /\
  next_fn w' = S (next_fn w) /\
  json_calls w' = json_calls w /\
  console w' = console w /\
  forall h,
    response w' h =
      if (h =? res)%nat
      then mkResponse (on_finish r ++ [f]) (on_close r ++ [f])
                      (writable r) (sent r)
      else response w h.
Proof.
  intros H. unfold add, res_on. run_js. rewrite H. simpl.
  rewrite !Nat.eqb_refl. simpl.
  repeat split. intros h. destruct (h =? res)%nat; reflexivity.
Qed.

Lemma emit_effect (res : Handle) (ev : Event) (w : World) :
  consistent w ->
  let w' := snd (emit res ev w) in
  let r := response w res in
  fst (emit res ev w) = Normal tt /\
  _lastMessage (this w') = _lastMessage (this w) /\
  next_fn w' = next_fn w /\
  json_calls w' = json_calls w /\
  console w' = console w /\
  (forall h, h <> res -> response w' h = response w h) /\
  response w' res = mkResponse [] [] (writable r) (sent r) /\
  (forall h, h <> res ->
     count_occ Nat.eq_dec (_responses (this w')) h =
     count_occ Nat.eq_dec (_responses (this w)) h) /\
  count_occ Nat.eq_dec (_responses (this w')) res = 0 /\
  (NoDup (_responses (this w)) -> NoDup (_responses (this w'))) /\
  (forall h, In h (_responses (this w')) -> In h (_responses (this w))).
Proof.
  intros C. destruct (C res) as (Hcf & Hnd & Hcap & Hcount).
  unfold emit, bind, get.
  assert (Hl : listeners ev (response w res) = on_finish (response w res))
    by (destruct ev; simpl; congruence).
  rewrite Hl.
  destruct (emit_loop res (on_finish (response w res)) w)
    as (A1 & A2 & A3 & A4 & A5 & A6 & A7 & A8 & A9 & A10 & A11);
    try assumption; try reflexivity.
  { intros f Hf. now apply Hcap. }
  repeat split; try assumption.
  rewrite A9, Hcount. lia.
Qed.

Lemma initial_consistent (w : World) : initial w -> consistent w.
Proof.
  intros [Ht Hl] res. cbv zeta. destruct (Hl res) as [Hf Hc].
  rewrite Hf, Hc, Ht. simpl. repeat split.
  - constructor.
  - contradiction.
  - contradiction.
Qed.

Lemma broadcast_consistent (message : Payload) (now : Z) (w : World) :
  consistent w -> consistent (snd (broadcast message now w)).
Proof.
  intros C res. cbv zeta.
  destruct (broadcast_effect message now w) as (_ & Ht & Hf & _ & Hr).
  rewrite Hr, Ht, Hf. simpl.
  destruct (C res) as (C1 & C2 & C3 & C4).
  destruct (existsb (Nat.eqb res) (_responses (this w)) &&
            writable (response w res)); simpl; auto.
Qed.

Lemma add_consistent (query : JS.value) (res : Handle) (w : World) :
  consistent w -> consistent (snd (add query res w)).
Proof.
  intros C h. cbv zeta. destruct (behind query (this w)) eqn:B.
  - rewrite add_behind by assumption.
    destruct (res_json_effect res (_lastMessage (this w)) w)
      as (_ & Ht & Hf & _ & _ & Hr).
    rewrite Hr, Ht, Hf.
    destruct (C h) as (C1 & C2 & C3 & C4).
    destruct (Nat.eqb_spec h res) as [->|Hne]; simpl; auto.
    destruct (writable (response w res)); simpl; auto.
  - destruct (add_parks query res w B) as (_ & Ht & Hf & _ & _ & Hr).
    rewrite Hr, Ht, Hf. simpl.
    destruct (C h) as (C1 & C2 & C3 & C4).
    destruct (Nat.eqb_spec h res) as [->|Hne]; simpl.
    + repeat split.
      * now rewrite C1.
      * apply NoDup_app; [assumption | repeat constructor; simpl; tauto |].
        intros g Hg [<-|[]]. apply C3 in Hg. simpl in Hg. lia.
      * apply in_app_or in H as [Hg|[<-|[]]]; [now apply C3 | reflexivity].
      * apply in_app_or in H as [Hg|[<-|[]]];
          [apply C3 in Hg; lia | simpl; lia].
      * rewrite count_occ_app, length_app. simpl.
        destruct (Nat.eq_dec res res); [lia | contradiction].
    + repeat split; auto.
      * now apply C3.
      * apply C3 in H. lia.
      * rewrite count_occ_app. simpl.
        destruct (Nat.eq_dec res h); [congruence | lia].
Qed.

Lemma emit_consistent (res : Handle) (ev : Event) (w : World) :
  consistent w -> consistent (snd (emit res ev w)).
Proof.
  intros C h. cbv zeta.
  destruct (emit_effect res ev w C)
    as (_ & _ & Hf & _ & _ & Ho & Hr & Hc & Hz & _ & _).
  destruct (Nat.eq_dec h res) as [->|Hne].
  - rewrite Hr, Hz. simpl. repeat split; try contradiction. constructor.
  - rewrite Ho, Hc, Hf by assumption. apply C.
Qed.

Lemma exec_consistent (op : Op Payload) (w : World) :
  consistent w -> consistent (exec op w).
Proof.
  destruct op; unfold exec; simpl.
  - apply broadcast_consistent.
  - apply add_consistent.
  - apply emit_consistent.
Qed.

Lemma reachable_consistent (allowed : Op Payload -> World -> Prop)
    (w : World) :
  reachable_by allowed w -> consistent w.
Proof.
  induction 1 as [w Hi | w op _ IH _].
  - now apply initial_consistent.
  - now apply exec_consistent.
Qed.

(** ** Broadcast *)

(** C1, as the code has it: after [broadcast(message)] the instance holds
    the new message; [res.json] has been called with
    [{message, time: now}] once for each entry of the pool; every response
    of the pool that was still open has received exactly that one body; no
    response has received more than one, and a response that was closed or
    outside the pool none; the pool itself is what it was before the
    call. *)
Theorem broadcast_fan_out (message : Payload) (now : Z) (w : World) :
  let w' := snd (broadcast message now w) in
  let v := Some (mkMessage message now) in
  _lastMessage (this w') = v /\
  (exists calls,
      json_calls w' = json_calls w ++ calls /\
      map (@call_res Payload) calls = _responses (this w) /\
      Forall (fun c => call_body c = v) calls) /\
  (forall res,
      In res (_responses (this w)) -> writable (response w res) = true ->
      sent (response w' res) = sent (response w res) ++ [v]) /\
  (forall res,
      sent (response w' res) = sent (response w res) \/
      sent (response w' res) = sent (response w res) ++ [v]) /\
  (forall res,
      ~ In res (_responses (this w)) \/ writable (response w res) = false ->
      sent (response w' res) = sent (response w res)) /\
  _responses (this w') = _responses (this w).
Proof.
  destruct (broadcast_effect message now w)
    as (_ & Ht & _ & (calls & Hj & Hm & Hb & _) & Hr).
  cbv zeta. rewrite Ht. simpl. split; [reflexivity|].
  split; [exists calls; auto|].
  split; [|split; [|split; [|reflexivity]]].
  - intros res Hin Hw. rewrite Hr, Hw.
    apply existsb_eqb_In in Hin. now rewrite Hin.
  - intros res. rewrite Hr.
    destruct (existsb (Nat.eqb res) (_responses (this w)) &&
              writable (response w res)); simpl; auto.
  - intros res H. rewrite Hr.
    destruct (existsb (Nat.eqb res) (_responses (this w))) eqn:E; simpl.
    + destruct H as [H|H].
      * apply existsb_eqb_In in E. contradiction.
      * now rewrite H.
    + reflexivity.
Qed.

(** C4: [broadcast] returns normally whatever the responses do.  It calls
    [res.json] with the new message once for each entry of the pool, in
    order, also after calls that threw; what a failed call threw is
    printed by [console.log] and nothing else is; every open response of
    the pool gets the message written. *)
Theorem broadcast_isolates_failures (message : Payload) (now : Z)
    (w : World) :
  let w' := snd (broadcast message now w) in
  let v := Some (mkMessage message now) in
  fst (broadcast message now w) = Normal tt /\
  (exists calls,
      json_calls w' = json_calls w ++ calls /\
      map (@call_res Payload) calls = _responses (this w) /\
      Forall (fun c => call_body c = v) calls /\
      console w' = console w ++ errors_of calls) /\
  (forall res,
      In res (_responses (this w)) -> writable (response w res) = false ->
      In (ResponseEnded res) (console w')) /\
  (forall res,
      In res (_responses (this w)) -> writable (response w res) = true ->
      sent (response w' res) = sent (response w res) ++ [v]).
Proof.
  destruct (broadcast_effect message now w)
    as (Hn & Ht & _ & (calls & Hj & Hm & Hb & Ho & Hc) & Hr).
  cbv zeta. split; [exact Hn|]. split; [|split].
  - exists calls. auto.
  - intros res Hin Hw. rewrite Hc. apply in_or_app. right.
    rewrite <- Hm in Hin. apply in_map_iff in Hin as (c & Hres & Hin).
    subst res. unfold errors_of. apply in_map_iff.
    exists c. split; [reflexivity|]. apply filter_In. split; [assumption|].
    rewrite Forall_forall in Ho. specialize (Ho c Hin).
    destruct (call_ok c); [|reflexivity].
    rewrite Ho in Hw by reflexivity. discriminate.
  - intros res Hin Hw. rewrite Hr, Hw.
    apply existsb_eqb_In in Hin. now rewrite Hin.
Qed.

(** C10: [broadcast] leaves the pool as it is, and so does every
    operation that is not the emission of [finish] or [close] on a
    response: apart from [connectionEnded], called by those events, the
    operations only ever append to the pool. *)
Theorem only_observers_remove :
  (forall (message : Payload) (now : Z) (w : World),
      _responses (this (snd (broadcast message now w))) =
      _responses (this w)) /\
  (forall (op : Op Payload) (w : World),
      (forall res ev, op <> Emits res ev) ->
      exists added,
        _responses (this (exec op w)) = _responses (this w) ++ added).
Proof.
  split.
  - intros message now w.
    destruct (broadcast_effect message now w) as (_ & Ht & _).
    now rewrite Ht.
  - intros [message now | query res | res ev] w Hop; unfold exec; simpl.
    + exists []. rewrite app_nil_r.
      destruct (broadcast_effect message now w) as (_ & Ht & _).
      now rewrite Ht.
    + destruct (behind query (this w)) eqn:B.
      * exists []. rewrite app_nil_r, add_behind by assumption.
        destruct (res_json_effect res (_lastMessage (this w)) w)
          as (_ & Ht & _).
        now rewrite Ht.
      * exists [res].
        destruct (add_parks query res w B) as (_ & Ht & _).
        now rewrite Ht.
    + exfalso. eapply Hop. reflexivity.
Qed.

(** ** Subscribe *)









(** ** Disconnection *)

Lemma emit_without_listeners (res : Handle) (ev : Event) (w : World) :
  listeners ev (response w res) = [] -> emit res ev w = (Normal tt, w).
Proof. intros H. unfold emit, bind, get. now rewrite H. Qed.

(** C6: in a world reached by the operations, when [finish] or [close]
    is emitted on a response, the response is out of the pool afterwards
    (the other entries stay) and it has no listener left for either
    event; emitting either event again changes nothing; and a broadcast
    after that returns normally without calling [res.json] on it. *)
Theorem disconnect_cleanup (res : Handle) (ev : Event) (w : World) :
  reachable w ->
  let w1 := exec (Emits res ev) w in
  ~ In res (_responses (this w1)) /\
  (forall h, h <> res ->
     count_occ Nat.eq_dec (_responses (this w1)) h =
     count_occ Nat.eq_dec (_responses (this w)) h) /\
  (forall ev', listeners ev' (response w1 res) = []) /\
  (forall ev', exec (Emits res ev') w1 = w1) /\
  (forall message now,
      let w2 := snd (broadcast message now w1) in
      fst (broadcast message now w1) = Normal tt /\
      (exists calls,
          json_calls w2 = json_calls w1 ++ calls /\
          ~ In res (map (@call_res Payload) calls)) /\
      response w2 res = response w1 res).
Proof.
  intros R. apply reachable_consistent in R. cbv zeta.
  change (exec (Emits res ev) w) with (snd (emit res ev w)).
  destruct (emit_effect res ev w R)
    as (_ & _ & _ & _ & _ & _ & Hr & Hc & Hz & _ & _).
  assert (Hout : ~ In res (_responses (this (snd (emit res ev w)))))
    by (apply (count_occ_not_In Nat.eq_dec); exact Hz).
  assert (Hl : forall ev',
             listeners ev' (response (snd (emit res ev w)) res) = [])
    by (intros ev'; rewrite Hr; destruct ev'; reflexivity).
  split; [exact Hout|]. split; [exact Hc|]. split; [exact Hl|]. split.
  - intros ev'. unfold exec. simpl.
    now rewrite emit_without_listeners by apply Hl.
  - intros message now.
    destruct (broadcast_effect message now (snd (emit res ev w)))
      as (Hn & _ & _ & (calls & Hj & Hm & _) & Hb).
    split; [exact Hn|]. split.
    + exists calls. split; [exact Hj | now rewrite Hm].
    + rewrite Hb.
      destruct (existsb (Nat.eqb res)
                  (_responses (this (snd (emit res ev w))))) eqn:E;
        [|reflexivity].
      apply existsb_eqb_In in E. contradiction.
Qed.

(** ** The pool *)

(** C7, as the code has it: when every call of [add] is given a response
    that is not in the pool at that moment, no response is in the pool
    twice, in any world reached by the operations. *)
Theorem pool_without_duplicates (w : World) :
  reachable_by (@fresh_response Payload) w ->
  NoDup (_responses (this w)).
Proof.
  intros R. induction R as [w [Ht _] | w op R IH Hop].
  - rewrite Ht. constructor.
  - pose proof (reachable_consistent _ w R) as C.
    destruct op as [message now | query res | res ev]; unfold exec; simpl.
    + destruct (broadcast_effect message now w) as (_ & Ht & _).
      now rewrite Ht.
    + simpl in Hop. destruct (behind query (this w)) eqn:B.
      * rewrite add_behind by assumption.
        destruct (res_json_effect res (_lastMessage (this w)) w)
          as (_ & Ht & _).
        now rewrite Ht.
      * destruct (add_parks query res w B) as (_ & Ht & _).
        rewrite Ht. simpl. apply NoDup_app; [assumption | |].
        -- repeat constructor. simpl. tauto.
        -- intros h Hh [<-|[]]. contradiction.
    + destruct (emit_effect res ev w C)
        as (_ & _ & _ & _ & _ & _ & _ & _ & _ & Hnd & _).
      now apply Hnd.
Qed.

(** ** Timestamps *)

Lemma observers_keep_message (ls : list Listener) (w : World) :
  _lastMessage (this (snd (for_of ls (@connectionEnded Payload) w))) =
  _lastMessage (this w).
Proof.
  revert w. induction ls as [|f t IH]; intros w; simpl; [reflexivity|].
  unfold bind.
  destruct (connectionEnded_effect f w) as (En & El & _).
  destruct (connectionEnded f w) as [c w1] eqn:E. simpl in *. subst c.
  now rewrite IH.
Qed.






(** ** Further properties of the class *)

(** X1: [lastMessage] is the message and the time of the most recent
    broadcast of a run, whatever calls of [add] and events came after it,
    and what it was before the run when the run has no broadcast ([null]
    on a new instance). *)
Theorem lastMessage_is_latest (ops : list (Op Payload)) (w : World) :
  lastMessage (this (run ops w)) =
    last (map Some (messages ops)) (lastMessage (this w)) /\
  (messages ops = [] ->
   lastMessage (this (run ops w)) = lastMessage (this w)) /\
  lastMessage (constructor Payload) = None.
Proof.
  assert (E : forall (op : Op Payload) (w0 : World),
             _lastMessage (this (exec op w0)) =
             match op with
             | CallBroadcast message now => Some (mkMessage message now)
             | _ => _lastMessage (this w0)
             end).
  { intros [message now | query res | res ev] w0; unfold exec; simpl.
    - destruct (broadcast_effect message now w0) as (_ & Ht & _).
      now rewrite Ht.
    - destruct (behind query (this w0)) eqn:B.
      + rewrite add_behind by assumption.
        destruct (res_json_effect res (_lastMessage (this w0)) w0)
          as (_ & Ht & _).
        now rewrite Ht.
      + destruct (add_parks query res w0 B) as (_ & Ht & _).
        now rewrite Ht.
    - unfold emit, bind, get. now rewrite observers_keep_message. }
  assert (L : forall (a d : option Message) l, last (a :: l) d = last l a).
  { intros a d l. revert a d.
    induction l as [|b t IH]; intros a d; [reflexivity|].
    change (last (a :: b :: t) d) with (last (b :: t) d). now rewrite !IH. }
  assert (G : forall (ops0 : list (Op Payload)) (w0 : World),
             lastMessage (this (run ops0 w0)) =
             last (map Some (messages ops0)) (lastMessage (this w0))).
  { unfold run, lastMessage. intros ops0.
    induction ops0 as [|op t IH]; intros w0; [reflexivity|].
    simpl fold_left. rewrite IH, E.
    destruct op; cbn [messages map]; now rewrite ?L. }
  split; [apply G|]. split; [|reflexivity].
  intros H. now rewrite G, H.
Qed.

(** X2: in every world reached by the operations, a response has the
    same observers for [finish] and for [close], none of them twice, and
    exactly one for each of its entries in the pool; a response that is
    not in the pool has no observer left. *)
Theorem observers_match_pool (w : World) :
  reachable w ->
  forall res,
    on_close (response w res) = on_finish (response w res) /\
    NoDup (on_finish (response w res)) /\
    List.length (on_finish (response w res)) =
      count_occ Nat.eq_dec (_responses (this w)) res /\
    (~ In res (_responses (this w)) ->
     forall ev, listeners ev (response w res) = []).
Proof.
  intros R res. apply reachable_consistent in R.
  destruct (R res) as (Hc & Hn & _ & Hl).
  split; [exact Hc|]. split; [exact Hn|]. split; [now rewrite Hl|].
  intros Hout ev.
  apply (count_occ_not_In Nat.eq_dec) in Hout. rewrite Hout in Hl.
  symmetry in Hl. apply length_zero_iff_nil in Hl.
  destruct ev; simpl; congruence.
Qed.



(** X8: [broadcast] creates no function and registers or removes no
    listener; it leaves every response outside the pool as it is, and on
    an empty pool it calls nothing and prints nothing. *)
Theorem broadcast_frame (message : Payload) (now : Z) (w : World) :
  let w' := snd (broadcast message now w) in
  next_fn w' = next_fn w /\
  (forall h ev, listeners ev (response w' h) = listeners ev (response w h)) /\
  (forall h, ~ In h (_responses (this w)) -> response w' h = response w h) /\
  (_responses (this w) = [] ->
   json_calls w' = json_calls w /\ console w' = console w).
Proof.
  cbv zeta.
  destruct (broadcast_effect message now w)
    as (_ & _ & Hf & (calls & Hj & Hm & _ & _ & Hc) & Hr).
  split; [exact Hf|]. split; [|split].
  - intros h ev. rewrite Hr.
    destruct (existsb (Nat.eqb h) (_responses (this w)) &&
              writable (response w h)); [|reflexivity].
    destruct ev; reflexivity.
  - intros h Hout. rewrite Hr.
    destruct (existsb (Nat.eqb h) (_responses (this w))) eqn:E;
      [|reflexivity].
    apply existsb_eqb_In in E. contradiction.
  - intros He. rewrite He in Hm. apply map_eq_nil in Hm. subst calls.
    rewrite Hj, Hc. unfold errors_of. simpl. now rewrite !app_nil_r.
Qed.

Lemma drop_first_middle (x : Handle) (l1 l2 : list Handle) :
  ~ In x l1 -> drop_first x (l1 ++ x :: l2) = l1 ++ l2.
Proof.
  induction l1 as [|y t IH]; simpl; intros H.
  - now rewrite Nat.eqb_refl.
  - destruct (Nat.eqb_spec y x) as [->|Hne]; [tauto|].
    f_equal. apply IH. tauto.
Qed.

(** X10: one call of [connectionEnded] returns normally, takes the first
    entry of its response out of the pool and keeps the other entries in
    their order; when the response is not in the pool the pool stays as it
    is (the test on [-1]: [splice(-1, 1)] would take out the last entry).
    The message, the calls, the log and the other responses are not
    touched. *)
Theorem connectionEnded_removes_first (f : Listener) (w : World) :
  let w' := snd (connectionEnded f w) in
  fst (connectionEnded f w) = Normal tt /\
  (~ In (captured f) (_responses (this w)) ->
   _responses (this w') = _responses (this w)) /\
  (forall l1 l2,
      _responses (this w) = l1 ++ captured f :: l2 ->
      ~ In (captured f) l1 ->
      _responses (this w') = l1 ++ l2) /\
  _lastMessage (this w') = _lastMessage (this w) /\
  json_calls w' = json_calls w /\
  console w' = console w /\
  (forall h, h <> captured f -> response w' h = response w h) /\
  (forall l x, splice (l ++ [x]) (-1) 1 = l).
Proof.
  cbv zeta.
  destruct (connectionEnded_effect f w) as (Hn & Hl & Hp & _ & Hj & Hc & Hr).
  split; [exact Hn|]. split; [|split]; [| |split; [exact Hl|]].
  - intros Hout. rewrite Hp. now apply drop_first_absent.
  - intros l1 l2 E Hout. rewrite Hp, E. now apply drop_first_middle.
  - split; [exact Hj|]. split; [exact Hc|]. split.
    + intros h Hne. rewrite Hr.
      destruct (Nat.eqb_spec h (captured f)); [contradiction | reflexivity].
    + intros l x. unfold splice. rewrite length_app. simpl.
      replace (Z.to_nat
                 (Z.max (Z.of_nat (List.length l + 1) + -1) 0))
        with (List.length l) by lia.
      rewrite firstn_app, firstn_all, Nat.sub_diag. simpl.
      rewrite skipn_all2 by (rewrite length_app; simpl; lia).
      now rewrite !app_nil_r.
Qed.

Lemma filter_drop_first (x : Handle) (l : list Handle) :
  filter (fun h => negb (h =? x)%nat) (drop_first x l) =
  filter (fun h => negb (h =? x)%nat) l.
Proof.
  induction l as [|y t IH]; simpl; [reflexivity|].
  destruct (Nat.eqb_spec y x) as [->|Hne]; simpl.
  - reflexivity.
  - destruct (Nat.eqb_spec y x); [contradiction|]. simpl. now rewrite IH.
Qed.

Lemma filter_absent (x : Handle) (l : list Handle) :
  ~ In x l -> filter (fun h => negb (h =? x)%nat) l = l.
Proof.
  induction l as [|y t IH]; simpl; intros H; [reflexivity|].
  destruct (Nat.eqb_spec y x) as [->|Hne]; [tauto|].
  simpl. f_equal. apply IH. tauto.
Qed.

Lemma emit_loop_pool (res : Handle) (ls : list Listener) :
  forall w : World,
    on_finish (response w res) = ls ->
    on_close (response w res) = ls ->
    NoDup ls ->
    (forall f, In f ls -> captured f = res) ->
    count_occ Nat.eq_dec (_responses (this w)) res = List.length ls ->
    _responses (this (snd (for_of ls (@connectionEnded Payload) w))) =
    filter (fun h => negb (h =? res)%nat) (_responses (this w)).
Proof.
  induction ls as [|f t IH]; intros w Hf Hc Hnd Hcap Hcount; simpl.
  - symmetry. apply filter_absent.
    now apply (count_occ_not_In Nat.eq_dec).
  - unfold bind.
    destruct (connectionEnded_effect f w) as (En & _ & Ep & _ & _ & _ & Er).
    destruct (connectionEnded f w) as [c w1] eqn:E. simpl in *. subst c.
    assert (Hres : captured f = res) by (apply Hcap; now left).
    rewrite Hres in *.
    apply NoDup_cons_iff in Hnd as [Hnotin Hnd'].
    assert (R1 : response w1 res =
                 mkResponse t t (writable (response w res))
                            (sent (response w res))).
    { rewrite Er, Nat.eqb_refl, Hf, Hc.
      now rewrite removeListener_head by assumption. }
    rewrite IH.
    + rewrite Ep. apply filter_drop_first.
    + now rewrite R1.
    + now rewrite R1.
    + assumption.
    + intros g Hg. apply Hcap. now right.
    + rewrite Ep, count_drop_first_same, Hcount. reflexivity.
Qed.

Lemma emit_pool (res : Handle) (ev : Event) (w : World) :
  consistent w ->
  _responses (this (snd (emit res ev w))) =
  filter (fun h => negb (h =? res)%nat) (_responses (this w)).
Proof.
  intros C. destruct (C res) as (Hcf & Hnd & Hcap & Hcount).
  unfold emit, bind, get.
  assert (Hl : listeners ev (response w res) = on_finish (response w res))
    by (destruct ev; simpl; congruence).
  rewrite Hl. apply emit_loop_pool; try assumption; try reflexivity.
  intros f Hf. now apply Hcap.
Qed.

(** X5: in a world reached by the operations, the emission of [finish]
    or [close] on a response takes every entry of that response out of
    the pool and leaves the other entries in the order in which they were
    parked. *)
Theorem disconnect_keeps_order (res : Handle) (ev : Event) (w : World) :
  reachable w ->
  _responses (this (exec (Emits res ev) w)) =
  filter (fun h => negb (h =? res)%nat) (_responses (this w)).
Proof.
  intros R. apply reachable_consistent in R.
  unfold exec. simpl. now apply emit_pool.
Qed.

(** X4: parking a response that is not in the pool and then emitting
    [finish] or [close] on it brings the instance and every response back
    to what they were: the pool, the message, the listeners and the bodies
    written are those of before, and nothing was called or printed. *)
Theorem park_then_disconnect (query : JS.value) (res : Handle) (ev : Event)
    (w : World) :
  reachable w ->
  behind query (this w) = false ->
  ~ In res (_responses (this w)) ->
  let w' := exec (Emits res ev) (exec (CallAdd query res) w) in
  this w' = this w /\
  (forall h, response w' h = response w h) /\
  json_calls w' = json_calls w /\
  console w' = console w.
Proof.
  intros R B Hout. cbv zeta. apply reachable_consistent in R.
  pose proof (add_consistent query res w R) as C1.
  change (exec (CallAdd query res) w) with (snd (add query res w)).
  change (exec (Emits res ev) (snd (add query res w)))
    with (snd (emit res ev (snd (add query res w)))).
  destruct (add_parks query res w B) as (_ & Ht & _ & Hj & Hc & Hr).
  destruct (emit_effect res ev _ C1)
    as (_ & El & _ & Ej & Ec & Eo & Er & _).
  pose proof (emit_pool res ev _ C1) as Ep.
  rewrite Ht in Ep, El. simpl in Ep, El.
  rewrite filter_app, filter_absent in Ep by assumption.
  simpl in Ep. rewrite Nat.eqb_refl in Ep. simpl in Ep.
  rewrite app_nil_r in Ep.
  split; [|split; [|split; [congruence | congruence]]].
  - destruct (this (snd (emit res ev (snd (add query res w))))) as [p m].
    destruct (this w) as [p0 m0]. simpl in *. congruence.
  - intros h. destruct (Nat.eq_dec h res) as [->|Hne].
    + rewrite Er, Hr, Nat.eqb_refl. simpl.
      destruct (R res) as (Hcf & _ & _ & Hcount).
      apply (count_occ_not_In Nat.eq_dec) in Hout.
      rewrite Hout in Hcount. symmetry in Hcount.
      apply length_zero_iff_nil in Hcount.
      destruct (response w res) as [f c wr s]. simpl in *. congruence.
    + rewrite Eo, Hr by assumption.
      destruct (Nat.eqb_spec h res); [contradiction | reflexivity].
Qed.

Lemma exec_keeps_parked (res : Handle) (op : Op Payload) (w : World) :
  consistent w ->
  keeps_parked res op ->
  In res (_responses (this w)) ->
  In res (_responses (this (exec op w))) /\
  response (exec op w) res = response w res.
Proof.
  intros C K Hin.
  destruct op as [message now | query res' | res' ev]; unfold exec; simpl.
  - contradiction.
  - simpl in K. destruct (behind query (this w)) eqn:B.
    + rewrite add_behind by assumption.
      destruct (res_json_effect res' (_lastMessage (this w)) w)
        as (_ & Ht & _ & _ & _ & Hr).
      rewrite Ht, Hr. split; [assumption|].
      destruct (Nat.eqb_spec res res'); [congruence | reflexivity].
    + destruct (add_parks query res' w B) as (_ & Ht & _ & _ & _ & Hr).
      rewrite Ht, Hr. simpl. split; [apply in_or_app; now left|].
      destruct (Nat.eqb_spec res res'); [congruence | reflexivity].
  - simpl in K. rewrite emit_pool by assumption.
    destruct (emit_effect res' ev w C) as (_ & _ & _ & _ & _ & Eo & _).
    split.
    + apply filter_In. split; [assumption|].
      destruct (Nat.eqb_spec res res'); [congruence | reflexivity].
    + apply Eo. congruence.
Qed.

Lemma run_keeps_parked (res : Handle) (ops : list (Op Payload)) (w : World) :
  consistent w ->
  Forall (keeps_parked res) ops ->
  In res (_responses (this w)) ->
  In res (_responses (this (run ops w))) /\
  response (run ops w) res = response w res.
Proof.
  unfold run. revert w.
  induction ops as [|op t IH]; intros w C H Hin; simpl; [auto|].
  inversion H as [|? ? Hop Ht]; subst.
  destruct (exec_keeps_parked res op w C Hop Hin) as [Hin' Hr'].
  destruct (IH (exec op w) (exec_consistent op w C) Ht Hin') as [Hi Hr].
  split; [exact Hi | congruence].
Qed.

(** X9: a response that is open when it is parked gets the next
    broadcast: whatever calls of [add] and events on other responses come
    in between, it is still in the pool when [broadcast] is called and the
    message of that broadcast is written to it. *)
Theorem parked_gets_next_broadcast (query : JS.value) (res : Handle)
    (ops : list (Op Payload)) (message : Payload) (now : Z) (w : World) :
  reachable w ->
  behind query (this w) = false ->
  writable (response w res) = true ->
  Forall (keeps_parked res) ops ->
  let w1 := run ops (exec (CallAdd query res) w) in
  let w2 := snd (broadcast message now w1) in
  In res (_responses (this w1)) /\
  sent (response w2 res) =
    sent (response w res) ++ [Some (mkMessage message now)].
Proof.
  intros R B W K. cbv zeta. apply reachable_consistent in R.
  pose proof (exec_consistent (CallAdd query res) w R) as C1.
  assert (P : In res (_responses (this (exec (CallAdd query res) w))) /\
              response (exec (CallAdd query res) w) res =
              mkResponse
                (on_finish (response w res) ++ [mkListener (next_fn w) res])
                (on_close (response w res) ++ [mkListener (next_fn w) res])
                (writable (response w res)) (sent (response w res))).
  { unfold exec. simpl.
    destruct (add_parks query res w B) as (_ & Ht & _ & _ & _ & Hr).
    rewrite Ht, Hr, Nat.eqb_refl. simpl.
    split; [apply in_or_app; right; now left | reflexivity]. }
  destruct P as [Hin Hres].
  destruct (run_keeps_parked res ops _ C1 K Hin) as [Hin1 Hr1].
  split; [exact Hin1|].
  destruct (broadcast_effect message now
              (run ops (exec (CallAdd query res) w)))
    as (_ & _ & _ & _ & Hb).
  rewrite Hb, Hr1, Hres. simpl. rewrite W.
  apply existsb_eqb_In in Hin1. rewrite Hin1. reflexivity.
Qed.



(** X11: in a world reached by the operations, [finish] or [close]
    emitted on a response that is not in the pool (one that was answered
    at once, or whose observer has already run) changes nothing at all. *)
Theorem event_on_unparked_is_ignored (res : Handle) (ev : Event)
    (w : World) :
  reachable w ->
  ~ In res (_responses (this w)) ->
  exec (Emits res ev) w = w.
Proof.
  intros R Hout. apply reachable_consistent in R.
  destruct (R res) as (Hcf & _ & _ & Hcount).
  apply (count_occ_not_In Nat.eq_dec) in Hout. rewrite Hout in Hcount.
  symmetry in Hcount. apply length_zero_iff_nil in Hcount.
  unfold exec. simpl. rewrite emit_without_listeners; [reflexivity|].
  destruct ev; simpl; congruence.
Qed.

(** X12: a second broadcast made before any observer has run writes to
    no response at all: every entry of the pool was closed by the first
    broadcast at the latest, so each call of [res.json] throws and is
    printed, one line for each entry of the pool, in order; the instance
    holds the second message. *)
Theorem second_broadcast_reaches_nobody (m1 m2 : Payload) (t1 t2 : Z)
    (w : World) :
  let w1 := snd (broadcast m1 t1 w) in
  let w2 := snd (broadcast m2 t2 w1) in
  fst (broadcast m2 t2 w1) = Normal tt /\
  (forall res, response w2 res = response w1 res) /\
  console w2 = console w1 ++ map ResponseEnded (_responses (this w)) /\
  _lastMessage (this w2) = Some (mkMessage m2 t2).
Proof.
  cbv zeta.
  destruct (broadcast_effect m1 t1 w) as (_ & Ht1 & _ & _ & Hr1).
  destruct (broadcast_effect m2 t2 (snd (broadcast m1 t1 w)))
    as (Hn & Ht2 & _ & (calls & _ & Hm & _ & Ho & Hc) & Hr2).
  rewrite Ht1 in Hm, Hr2, Ht2. simpl in Hm, Hr2, Ht2.
  assert (Closed : forall h,
             existsb (Nat.eqb h) (_responses (this w)) &&
             writable (response (snd (broadcast m1 t1 w)) h) = false).
  { intros h. rewrite Hr1.
    destruct (existsb (Nat.eqb h) (_responses (this w))) eqn:E;
      [|reflexivity].
    simpl. destruct (writable (response w h)) eqn:W; simpl; assumption
      || reflexivity. }
  split; [exact Hn|]. split; [|split].
  - intros res. now rewrite Hr2, Closed.
  - rewrite Hc. f_equal. rewrite <- Hm. unfold errors_of.
    rewrite forallb_filter_id; [now rewrite map_map|].
    apply forallb_forall. intros c Hin.
    rewrite Forall_forall in Ho. specialize (Ho c Hin).
    destruct (call_ok c); [|reflexivity].
    specialize (Ho eq_refl).
    assert (Hp : In (call_res c) (_responses (this w)))
      by (rewrite <- Hm; now apply in_map).
    apply existsb_eqb_In in Hp.
    specialize (Closed (call_res c)). rewrite Hp, Ho in Closed.
    discriminate.
  - now rewrite Ht2.
Qed.

End Properties.

(** ** The properties on concrete runs *)

Section Examples.

Local Open Scope string_scope.

Lemma w_new_initial : initial w_new.
Proof. split; [reflexivity | intros res; split; reflexivity]. Defined.

Lemma w_parked_reachable : reachable w_parked.
Proof.
  apply reach_step; [apply reach_initial; exact w_new_initial | exact I].
Defined.

Example Number_of_missing : JS.Number JS.undefined = JS.NaN.
Proof. reflexivity. Qed.

Example Number_of_letters : JS.Number (JS.text "abc") = JS.NaN.
Proof. reflexivity. Qed.

Example Number_of_digits : JS.Number (JS.text " 100 ") = JS.of_Z 100.
Proof. reflexivity. Qed.

(** The scenario of the specification: a client polls before any
    broadcast and is parked; the broadcast of "A" at time 100 reaches it;
    a client that polls with time 0 is answered at once; a client that
    polls with time 100 is parked and gets the broadcast of "B". *)
Example scenario :
  let w1 := exec (CallAdd (JS.text "0") 1) w_new in
  let w2 := exec (CallBroadcast "A" 100) w1 in
  let w3 := exec (Emits 1 finish) w2 in
  let w4 := exec (CallAdd (JS.text "0") 2) w3 in
  let w5 := exec (CallAdd (JS.text "100") 3) w4 in
  let w6 := exec (CallBroadcast "B" 150) w5 in
  _responses (this w1) = [1] /\
  sent (response w2 1) = [Some (mkMessage "A" 100)] /\
  _responses (this w3) = [] /\
  sent (response w4 2) = [Some (mkMessage "A" 100)] /\
  _responses (this w4) = [] /\
  _responses (this w5) = [3] /\
  sent (response w5 3) = [] /\
  sent (response w6 3) = [Some (mkMessage "B" 150)].
Proof. cbv zeta. repeat split. Qed.

(** C1 as the spec states it fails: the parked response gets the message
    "A" and is still in the pool when [broadcast] has returned; a second
    broadcast, made before [finish] is emitted, finds it in the pool and
    delivers nothing to it. *)
Lemma broadcast_does_not_drain :
  let w1 := snd (broadcast "A" 100 w_parked) in
  let w2 := snd (broadcast "B" 150 w1) in
  _responses (this w_parked) = [1] /\
  sent (response w1 1) = [Some (mkMessage "A" 100)] /\
  _responses (this w1) = [1] /\
  _responses (this w1) <> [] /\
  sent (response w2 1) = [Some (mkMessage "A" 100)] /\
  console w2 = [ResponseEnded 1].
Proof. cbv zeta. simpl. repeat split. discriminate. Qed.





Lemma disconnect_cleanup_witness :
  In 1 (_responses (this w_parked)) /\
  ~ In 1 (_responses (this (exec (Emits 1 close) w_parked))).
Proof.
  split; [simpl; auto|].
  exact (proj1 (disconnect_cleanup string 1 close w_parked
                  w_parked_reachable)).
Defined.

(** C7 as the spec states it fails: [add] called twice with one response
    puts it in the pool twice. *)
Lemma same_response_added_twice :
  let w := exec (CallAdd JS.undefined 1) w_parked in
  reachable w /\
  _responses (this w) = [1; 1] /\
  ~ NoDup (_responses (this w)).
Proof.
  cbv zeta. split; [|split].
  - apply reach_step; [exact w_parked_reachable | exact I].
  - reflexivity.
  - simpl. intros H. apply NoDup_cons_iff in H as [H _].
    apply H. now left.
Qed.

Lemma pool_without_duplicates_witness :
  NoDup (_responses (this (exec (CallAdd JS.undefined 2) w_parked))).
Proof.
  apply (pool_without_duplicates string).
  apply reach_step.
  - apply reach_step.
    + apply reach_initial. exact w_new_initial.
    + simpl. tauto.
  - simpl. intros [H|[]]. discriminate H.
Defined.



Lemma w_new_reachable : reachable w_new.
Proof. apply reach_initial. exact w_new_initial. Defined.

Lemma observers_match_pool_witness :
  on_close (response w_parked 1) = on_finish (response w_parked 1) /\
  List.length (on_finish (response w_parked 1)) =
    count_occ Nat.eq_dec (_responses (this w_parked)) 1.
Proof.
  destruct (observers_match_pool string w_parked w_parked_reachable 1)
    as (H1 & _ & H2 & _).
  split; assumption.
Defined.

Lemma disconnect_keeps_order_witness :
  let w := exec (CallAdd JS.undefined 3)
             (exec (CallAdd JS.undefined 2) w_parked) in
  _responses (this w) = [1; 2; 3] /\
  _responses (this (exec (Emits 2 close) w)) = [1; 3].
Proof.
  cbv zeta. split; [reflexivity|].
  rewrite (disconnect_keeps_order string 2 close).
  - reflexivity.
  - apply reach_step; [|exact I].
    apply reach_step; [exact w_parked_reachable | exact I].
Defined.

Lemma park_then_disconnect_witness :
  behind JS.undefined (this w_new) = false /\
  this (exec (Emits 1 close) (exec (CallAdd JS.undefined 1) w_new)) =
    this w_new.
Proof.
  split; [reflexivity|].
  exact (proj1 (park_then_disconnect string JS.undefined 1 close w_new
                  w_new_reachable eq_refl (fun H => H))).
Defined.

Lemma parked_gets_next_broadcast_witness :
  let ops := [CallAdd JS.undefined 2; Emits 2 close] in
  let w1 := run ops (exec (CallAdd JS.undefined 1) w_new) in
  Forall (keeps_parked 1) ops /\
  sent (response (snd (broadcast "A" 100 w1)) 1) =
    [Some (mkMessage "A" 100)].
Proof.
  cbv zeta.
  assert (K : Forall (keeps_parked (Payload:=string) 1)
                [CallAdd JS.undefined 2; Emits 2 close]).
  { repeat constructor; simpl; discriminate. }
  split; [exact K|].
  exact (proj2 (parked_gets_next_broadcast string JS.undefined 1
                  [CallAdd JS.undefined 2; Emits 2 close] "A" 100 w_new
                  w_new_reachable eq_refl eq_refl K)).
Defined.


Lemma event_on_unparked_is_ignored_witness :
  let w := exec (CallAdd (JS.text "0") 2) w_sent in
  sent (response w 2) = [Some (mkMessage "A" 100)] /\
  exec (Emits 2 finish) w = w.
Proof.
  cbv zeta. split; [reflexivity|].
  apply (event_on_unparked_is_ignored string).
  - apply reach_step; [|exact I].
    apply reach_step; [exact w_new_reachable | exact I].
  - simpl. tauto.
Defined.

End Examples.
